(** * Empire: release-to-job orchestration

    A shallow embedding of [empire/empire.go] (the [Empire] context object,
    its constructor [New], the facade methods and [newScheduler]) together
    with the collaborators that file wires up (formation model, job
    translator, scheduler abstraction, manager, release service).  The
    collaborators live in other files of the package; they are modelled from
    the specification and marked as such. *)

From stdpp Require Import base option list gmap fin_maps strings.
From Stdlib Require Import Lia.

Open Scope string_scope.
Open Scope list_scope.
Open Scope nat_scope.

(** ** Errors *)

(** [ValidationError] is the struct of empire.go: it wraps an [error] and its
    [Error] method returns the wrapped error's message.  [ErrorString] stands
    for the errors of foreign packages (database driver, net/url, docker).
    Modelled from the spec: the kinds [ConflictError], [NotFoundError] and
    [IndeterminateError], which empire.go does not declare. *)
Inductive error : Type :=
| ErrorString (msg : string)
| ValidationError (Err : error)
| ConflictError
| NotFoundError
| IndeterminateError.

Fixpoint Error (e : error) : string :=
  match e with
  | ErrorString msg => msg
  | ValidationError Err => Error Err
  | ConflictError => "conflict"
  | NotFoundError => "not found"
  | IndeterminateError => "indeterminate"
  end.

Global Instance error_eq_dec : EqDecision error.
Proof. solve_decision. Defined.

Definition isValidationError (e : option error) : bool :=
  match e with
  | Some (ValidationError _) => true
  | _ => false
  end.

(** ** Data model *)

(** Modelled from the spec: the entities of the data model (App, Config,
    Slug, Release, Formation, ProcessQuantityMap, JobState), whose type
    declarations are outside empire.go. *)
Record App := mkApp { app_Name : string }.

Record Config := mkConfig { config_ID : string; config_Vars : gmap string string }.

Record Slug := mkSlug {
  slug_ID : string;
  slug_Image : string;
  slug_ProcessTypes : gmap string string
}.

Record Process := mkProcess { Command : string; Quantity : nat }.

Abbreviation Formation := (gmap string Process).
Abbreviation ProcessQuantityMap := (gmap string nat).

Record Release := mkRelease {
  rel_App : string;
  rel_Version : nat;
  rel_Config : string;
  rel_Slug : string;
  rel_Formation : Formation;
  rel_Description : string
}.

Record Job := mkJob { job_App : string; job_Type : string; job_Instance : nat }.

Record JobSpec := mkJobSpec {
  spec_Job : Job;
  spec_Command : string;
  spec_Env : gmap string string
}.

Record JobState := mkJobState {
  state_Job : Job;
  state_Status : string;
  state_Command : string;
  state_Version : nat
}.

Global Instance Process_eq_dec : EqDecision Process.
Proof. solve_decision. Defined.
Global Instance Job_eq_dec : EqDecision Job.
Proof. solve_decision. Defined.
Global Instance JobSpec_eq_dec : EqDecision JobSpec.
Proof. solve_decision. Defined.
Global Instance Release_eq_dec : EqDecision Release.
Proof. solve_decision. Defined.

(** ** Formation model *)

Module FormationModel.

(** Modelled from the spec: the desired instance count of a process type in
    a Formation; a type the formation does not define has no instances. *)
Definition count (F : Formation) (p : string) : nat :=
  from_option Quantity 0 (F !! p).

(** Modelled from the spec: [merge], the merging of a ProcessQuantityMap
    into a Formation.  A mentioned type keeps its command and takes the
    requested count; the others are kept as they are. *)
Definition merge (F : Formation) (Q : ProcessQuantityMap) : Formation :=
  map_imap (λ p spec,
    Some (match Q !! p with
          | Some n => mkProcess (Command spec) n
          | None => spec
          end)) F.

(** Modelled from the spec: the validation of a scale request, every key of
    the quantity map is a process type of the formation. *)
Definition validQuantities (F : Formation) (Q : ProcessQuantityMap) : bool :=
  bool_decide (dom Q ⊆ dom F).

End FormationModel.

(** ** Job translator *)

Module Translator.
Import FormationModel.

(** Modelled from the spec: the instance indices to start when a type goes
    from [E] running instances to [D] desired ones, [[E, D)], empty unless
    [D > E]. *)
Definition scheduleIndices (E D : nat) : list nat := seq E (D - E).

(** Modelled from the spec: the instance indices to stop, the
    highest-indexed ones down to the new count, highest first; empty unless
    [D < E]. *)
Definition unscheduleIndices (E D : nat) : list nat := reverse (seq D (E - D)).

(** Modelled from the spec: the Job Translator, a pure function from the
    last-known formation and the desired formation to the jobs to stop and
    the job specifications to start.  Types absent from the desired
    formation have desired count 0 and so are fully unscheduled. *)
Definition toSchedule (app : string) (env : gmap string string)
    (F_old F_new : Formation) : list JobSpec :=
  flat_map (λ kv : string * Process,
      map (λ i, mkJobSpec (mkJob app kv.1 i) (Command kv.2) env)
          (scheduleIndices (count F_old kv.1) (Quantity kv.2)))
    (map_to_list F_new).

Definition toUnschedule (app : string) (F_old F_new : Formation) : list Job :=
  flat_map (λ kv : string * Process,
      map (mkJob app kv.1)
          (unscheduleIndices (Quantity kv.2) (count F_new kv.1)))
    (map_to_list F_old).

Definition diff (app : string) (env : gmap string string)
    (F_old F_new : Formation) : list Job * list JobSpec :=
  (toUnschedule app F_old F_new, toSchedule app env F_old F_new).

(** The instance indices the diff starts, resp. stops, for one type, in
    the order the diff lists them. *)
Definition scheduledFor (p : string) (specs : list JobSpec) : list nat :=
  map (λ s, job_Instance (spec_Job s))
      (filter (λ s, job_Type (spec_Job s) = p) specs).



End Translator.

(** ** Scheduler abstraction *)

(** Modelled from the spec: the capability interface over a cluster job
    scheduler (package [container], outside empire.go).  A backend is a
    state type with the three operations; each returns the error of the call
    and the backend's next state. *)
Class Scheduler (S : Type) := {
  Schedule : list JobSpec → S → option error * S;
  Unschedule : Job → S → option error * S;
  JobStates : option string → S → (list JobState * option error) * S
}.

Module FakeScheduler.

(** Modelled from the spec: the in-memory fake, which reflects Schedule
    and Unschedule at once in its own state: the specifications of the
    running jobs, oldest first. *)
Definition t := list JobSpec.

(** Modelled from the spec: a new fake runs no job. *)
Definition NewFakeScheduler : t := [].

Definition running (j : Job) (s : t) : bool :=
  bool_decide (j ∈ map spec_Job s).

(** Modelled from the spec: Schedule is idempotent per job identifier,
    resubmitting one that already runs is a no-op; Unschedule of an unknown
    job fails with [NotFoundError]; JobStates lists the running jobs of the
    App asked for, or of all. *)
Definition submit (s : t) (spec : JobSpec) : t :=
  if running (spec_Job spec) s then s else s ++ [spec].

Definition schedule (specs : list JobSpec) (s : t) : option error * t :=
  (None, foldl submit s specs).

Definition unschedule (j : Job) (s : t) : option error * t :=
  if running j s
  then (None, filter (λ spec, spec_Job spec ≠ j) s)
  else (Some NotFoundError, s).

Definition matches (appFilter : option string) (spec : JobSpec) : bool :=
  match appFilter with
  | Some a => bool_decide (job_App (spec_Job spec) = a)
  | None => true
  end.

Definition jobStates (appFilter : option string) (s : t)
    : (list JobState * option error) * t :=
  ((map (λ spec, mkJobState (spec_Job spec) "running" (spec_Command spec) 0)
        (filter (λ spec, matches appFilter spec = true) s), None), s).

Global Instance scheduler : Scheduler t := {|
  Schedule := schedule;
  Unschedule := unschedule;
  JobStates := jobStates
|}.

End FakeScheduler.

(** ** Store and world *)

(** Modelled from the spec: the persistence collaborator.  It keeps the
    releases (newest first) and, per App, the active formation with the
    sequence stamp of the optimistic-concurrency check. *)
Record StoreData := mkStore {
  st_Releases : list Release;
  st_Formations : gmap string (nat * Formation)
}.

Definition emptyStore : StoreData := mkStore [] ∅.

Inductive SchedulerCall : Type :=
| CallSchedule (specs : list JobSpec)
| CallUnschedule (j : Job)
| CallJobStates (appFilter : option string).

(** What one Empire instance acts on: its store, its scheduler, and the log
    of the calls issued to that scheduler (oldest first). *)
Record World (S : Type) := mkWorld {
  w_store : StoreData;
  w_sched : S;
  w_calls : list SchedulerCall
}.
Arguments mkWorld {S} _ _ _.
Arguments w_store {S} _.
Arguments w_sched {S} _.
Arguments w_calls {S} _.

(** Stateful code is written in a state monad; operations of the services
    are state transformers over the world. *)
Definition State (Σ A : Type) : Type := Σ → A * Σ.

Global Instance State_ret {Σ} : MRet (State Σ) := λ A (a : A) σ, (a, σ).
Global Instance State_bind {Σ} : MBind (State Σ) :=
  λ A B (k : A → State Σ B) (m : State Σ A) σ, let '(a, σ') := m σ in k a σ'.

Abbreviation Op S := (State (World S)).

Definition getStore {S} : Op S StoreData := λ w, (w_store w, w).
Definition putStore {S} (st : StoreData) : Op S unit :=
  λ w, (tt, mkWorld st (w_sched w) (w_calls w)).

Section SchedulerCalls.
Context {S : Type} `{!Scheduler S}.

Definition callSchedule (specs : list JobSpec) : Op S (option error) :=
  λ w, let '(err, s) := Schedule specs (w_sched w) in
       (err, mkWorld (w_store w) s (w_calls w ++ [CallSchedule specs])).

Definition callUnschedule (j : Job) : Op S (option error) :=
  λ w, let '(err, s) := Unschedule j (w_sched w) in
       (err, mkWorld (w_store w) s (w_calls w ++ [CallUnschedule j])).

Definition callJobStates (appFilter : option string)
    : Op S (list JobState * option error) :=
  λ w, let '(r, s) := JobStates appFilter (w_sched w) in
       (r, mkWorld (w_store w) s (w_calls w ++ [CallJobStates appFilter])).
End SchedulerCalls.

Module Store.

(** Modelled from the spec: the store's last-known formation of an App and
    its stamp; an App that was never scaled has the empty formation at
    stamp 0. *)
Definition FormationCurrent (app : string) (st : StoreData) : nat * Formation :=
  default (0, ∅) (st_Formations st !! app).

(** Modelled from the spec: the optimistic update of the active formation.
    It succeeds only if the stamp read earlier is still the stored one; it
    never overwrites blindly. *)
Definition FormationUpdate (app : string) (stamp : nat) (F : Formation)
    (st : StoreData) : option error * StoreData :=
  if bool_decide ((FormationCurrent app st).1 = stamp)
  then (None, mkStore (st_Releases st) (<[app := (S stamp, F)]> (st_Formations st)))
  else (Some ConflictError, st).

(** Modelled from the spec: the store's finders keyed by App, the releases
    of an App, their versions (newest first), the highest version (0 when
    there is none) and the latest release. *)
Definition ofApp (app : string) (rels : list Release) : list Release :=
  filter (λ r, rel_App r = app) rels.

Definition versions (app : string) (rels : list Release) : list nat :=
  map rel_Version (ofApp app rels).

Definition highestVersion (app : string) (rels : list Release) : nat :=
  foldr Nat.max 0 (versions app rels).

Definition ReleasesLast (app : string) (st : StoreData) : option Release :=
  head (filter (λ r, rel_Version r = highestVersion app (st_Releases st))
               (ofApp app (st_Releases st))).

(** Modelled from the spec: whether the pair (App, version) is already
    stored. *)
Definition taken (app : string) (v : nat) (rels : list Release) : bool :=
  bool_decide (v ∈ versions app rels).

(** Modelled from the spec: the insertion of a release under the store's
    uniqueness constraint on (App, version). *)
Definition ReleasesCreate (r : Release) (st : StoreData)
    : option error * StoreData :=
  if taken (rel_App r) (rel_Version r) (st_Releases st)
  then (Some ConflictError, st)
  else (None, mkStore (r :: st_Releases st) (st_Formations st)).

End Store.

(** ** Manager *)

Module Manager.
Import FormationModel Translator.

Section WithScheduler.
Context {B : Type} `{!Scheduler B}.

(** Modelled from the spec: the formation actually achieved once job [j],
    the highest-indexed instance of its type, is stopped, resp. once the
    job of [spec] is started. *)
Definition stopped (j : Job) (F : Formation) : Formation :=
  alter (λ spec, mkProcess (Command spec) (job_Instance j)) (job_Type j) F.

Definition started (spec : JobSpec) (F : Formation) : Formation :=
  <[job_Type (spec_Job spec) :=
      mkProcess (spec_Command spec) (S (job_Instance (spec_Job spec)))]> F.

(** Modelled from the spec: the application of the operations.  Stop the
    jobs in order; a [NotFoundError] of the backend counts as already
    satisfied; any other error ends the run and is returned with the
    formation achieved so far.  No call is rolled back. *)
Fixpoint unscheduleAll (jobs : list Job) (achieved : Formation)
    : Op B (Formation * option error) :=
  match jobs with
  | [] => mret (achieved, None)
  | j :: rest =>
      err ← callUnschedule j;
      match err with
      | None | Some NotFoundError => unscheduleAll rest (stopped j achieved)
      | Some e => mret (achieved, Some e)
      end
  end.

Fixpoint scheduleAll (specs : list JobSpec) (achieved : Formation)
    : Op B (Formation * option error) :=
  match specs with
  | [] => mret (achieved, None)
  | spec :: rest =>
      err ← callSchedule [spec];
      match err with
      | None => scheduleAll rest (started spec achieved)
      | Some e => mret (achieved, Some e)
      end
  end.

(** Modelled from the spec: persisting a formation as the App's active one,
    under the stamp read when the diff was computed. *)
Definition persist (app : string) (stamp : nat) (F : Formation)
    : Op B (option error) :=
  st ← getStore;
  let '(err, st') := Store.FormationUpdate app stamp F st in
  _ ← putStore st';
  mret err.

(** Modelled from the spec: [Manager.ScaleRelease], which empire.go only
    calls.  Validate the quantities, merge them into the formation, diff
    the result against the store's last-known formation of the App,
    apply the operations (stops first), and persist what was applied:
    the desired formation on success, the formation achieved so far
    together with the first error otherwise. *)
Definition ScaleRelease (release : Release) (config : Config) (slug : Slug)
    (formation : Formation) (quantities : ProcessQuantityMap)
    : Op B (option error) :=
  if validQuantities formation quantities then
    let desired := merge formation quantities in
    let app := rel_App release in
    st ← getStore;
    let '(stamp, F_old) := Store.FormationCurrent app st in
    let '(stops, starts) := diff app (config_Vars config) F_old desired in
    '(achieved, err) ← unscheduleAll stops F_old;
    match err with
    | Some e => _ ← persist app stamp achieved; mret (Some e)
    | None =>
        '(achieved, err) ← scheduleAll starts achieved;
        match err with
        | Some e => _ ← persist app stamp achieved; mret (Some e)
        | None => persist app stamp desired
        end
    end
  else mret (Some (ValidationError (ErrorString "unknown process type"))).

End WithScheduler.
End Manager.

(** ** Job state reconciler *)

Module JobStatesService.
Section WithScheduler.
Context {B : Type} `{!Scheduler B}.

(** Modelled from the spec: the join of an observed state with the App's
    latest release (command of the process type, version). *)
Definition enrich (last : option Release) (js : JobState) : JobState :=
  match last with
  | None => js
  | Some r =>
      mkJobState (state_Job js) (state_Status js)
        (from_option Command (state_Command js)
           (rel_Formation r !! job_Type (state_Job js)))
        (rel_Version r)
  end.

(** Modelled from the spec: [JobStatesService.JobStatesByApp].  Every
    call queries the scheduler; nothing is cached or stored. *)
Definition JobStatesByApp (app : App) : Op B (list JobState * option error) :=
  '(states, err) ← callJobStates (Some (app_Name app));
  match err with
  | Some e => mret ([], Some e)
  | None =>
      st ← getStore;
      mret (map (enrich (Store.ReleasesLast (app_Name app) st)) states, None)
  end.

End WithScheduler.
End JobStatesService.

(** ** Release service *)

Module ReleasesService.

(** Modelled from the spec: the designated default process type. *)
Definition defaultProcessType : string := "web".

(** Modelled from the spec: the formation of an App's first release, the
    slug's process types with one instance of the default type and none of
    the others. *)
Definition initialFormation (slug : Slug) : Formation :=
  map_imap (λ p cmd,
    Some (mkProcess cmd (if bool_decide (p = defaultProcessType) then 1 else 0)))
    (slug_ProcessTypes slug).

(** Modelled from the spec: the release a create would insert, as computed
    from the store it reads: version one above the highest existing one,
    formation of the prior release or the initial one. *)
Definition newRelease (app : App) (config : Config) (slug : Slug)
    (desc : string) (st : StoreData) : Release :=
  mkRelease (app_Name app)
    (S (Store.highestVersion (app_Name app) (st_Releases st)))
    (config_ID config) (slug_ID slug)
    (match Store.ReleasesLast (app_Name app) st with
     | Some prev => rel_Formation prev
     | None => initialFormation slug
     end)
    desc.

Definition outcome (r : Release) (err : option error)
    : option Release * option error :=
  match err with
  | Some e => (None, Some e)
  | None => (Some r, None)
  end.

(** Modelled from the spec: [ReleasesService.ReleasesCreate], which
    empire.go only calls.  It schedules nothing. *)
Definition ReleasesCreate {B : Type} (app : App) (config : Config)
    (slug : Slug) (desc : string) : Op B (option Release * option error) :=
  st ← getStore;
  let r := newRelease app config slug desc st in
  let '(err, st') := Store.ReleasesCreate r st in
  _ ← putStore st';
  mret (outcome r err).

End ReleasesService.

(** Modelled from the spec: concurrent creates.  A create is not atomic: it
    reads the store, then inserts; the steps of several requests interleave
    freely between the two, and only the store's uniqueness constraint
    serializes them. *)
Module Race.

Record Request := mkRequest {
  req_App : App;
  req_Config : Config;
  req_Slug : Slug;
  req_Desc : string
}.










End Race.

(** ** empire.go *)

Module Empire.

(** A pointer is an address in the heap of service objects, or nil. *)
Definition ptr := option nat.

(** Key used to store context values from within the package. *)
Definition UserKey : Z := 0%Z.

Section Package.
(** Types of foreign packages and of the package's other files. *)
Context {AuthConfigurations DBConn URL Extractor FleetScheduler : Type}.

Record DockerOptions := mkDockerOptions {
  Organization : string;
  Socket : string;
  CertPath : string;
  Auth : option AuthConfigurations
}.

Record FleetOptions := mkFleetOptions { API : string }.

Record Options := mkOptions {
  Docker : DockerOptions;
  Fleet : FleetOptions;
  Secret : string;
  DB : string
}.

Definition DefaultOptions : Options :=
  mkOptions (mkDockerOptions "" "" "" None) (mkFleetOptions "") "" "".

(** A [container.Scheduler] value: a reference to the in-memory fake
    or to a fleet backend. *)
Inductive SchedulerRef : Type :=
| FakeRef (a : nat)
| FleetRef (f : FleetScheduler).

Record EmpireT := mkEmpire {
  Store : ptr;
  AccessTokens : ptr;
  Apps : ptr;
  Configs : ptr;
  JobStates : ptr;
  Manager : ptr;
  Releases : ptr;
  Slugs : ptr;
  DeploysService : ptr
}.

Inductive object : Type :=
| OFakeScheduler (s : FakeScheduler.t)
| OStore (db : option DBConn)
| OAccessTokensService (secret : list Byte.byte)
| OConfigsService (store : ptr)
| OJobsService (store : ptr) (scheduler : option SchedulerRef)
| OJobStatesService (store : ptr) (scheduler : option SchedulerRef)
| OAppsService (store : ptr) (jobsService : ptr)
| OManager (jobsService : ptr) (store : ptr)
| OReleasesService (store : ptr) (manager : ptr)
| OSlugsService (store : ptr) (extractor : option Extractor)
| OimageDeployer (appsService configsService slugsService releasesService : ptr)
| OcommitDeployer (organization : string) (imageDeployer : ptr) (appsService : ptr)
| OEmpire (e : EmpireT).

#[local] Abbreviation heap := (list object).

(** [&T{...}]: a fresh object, at the next free address. *)
Definition alloc (o : object) : State heap ptr :=
  λ h, (Some (length h), h ++ [o]).

Definition deref (p : ptr) (h : heap) : option object :=
  a ← p; h !! a.

(** Constructors defined outside empire.go. *)
Variable newDB : string → option DBConn * option error.
Variable url_Parse : string → option URL * option error.
Variable NewFleetScheduler : option URL → option FleetScheduler * option error.
Variable NewExtractor :
  string → string → option AuthConfigurations → option Extractor * option error.

(** Modelled from the spec: [container.NewFakeScheduler], which creates
    a new in-memory fake with no job. *)
Definition NewFakeScheduler : State heap SchedulerRef :=
  λ h, (FakeRef (length h), h ++ [OFakeScheduler FakeScheduler.NewFakeScheduler]).

Definition newScheduler (fleetURL : string)
    : State heap (option SchedulerRef * option error) :=
  if bool_decide (fleetURL = "fake") then
    s ← NewFakeScheduler;
    mret (Some s, None)
  else
    let '(u, err) := url_Parse fleetURL in
    match err with
    | Some _ => mret (None, err)
    | None =>
        let '(f, err) := NewFleetScheduler u in
        mret (FleetRef <$> f, err)
    end.

Definition New (options : Options) : State heap (ptr * option error) :=
  let '(db, err) := newDB (DB options) in
  match err with
  | Some _ => mret (None, err)
  | None =>
  store ← alloc (OStore db);
  '(scheduler, err) ← newScheduler (API (Fleet options));
  match err with
  | Some _ => mret (None, err)
  | None =>
  let '(extractor, err) :=
    NewExtractor (Socket (Docker options)) (CertPath (Docker options))
                 (Auth (Docker options)) in
  match err with
  | Some _ => mret (None, err)
  | None =>
  accessTokens ← alloc (OAccessTokensService (String.list_byte_of_string (Secret options)));
  configs ← alloc (OConfigsService store);
  jobs ← alloc (OJobsService store scheduler);
  jobStates ← alloc (OJobStatesService store scheduler);
  apps ← alloc (OAppsService store jobs);
  manager ← alloc (OManager jobs store);
  releases ← alloc (OReleasesService store manager);
  slugs ← alloc (OSlugsService store extractor);
  imageDeployer ← alloc (OimageDeployer apps configs slugs releases);
  commitDeployer ← alloc (OcommitDeployer (Organization (Docker options))
                            imageDeployer apps);
  e ← alloc (OEmpire {|
         Store := store;
         AccessTokens := accessTokens;
         Apps := apps;
         Configs := configs;
         DeploysService := commitDeployer;
         JobStates := jobStates;
         Manager := manager;
         Slugs := slugs;
         Releases := releases |});
  mret (e, None)
  end end end.

(** Every service field of the Empire is a non-nil pointer. *)
Definition allServicesSet (e : EmpireT) : Prop :=
  is_Some (Store e) ∧ is_Some (AccessTokens e) ∧ is_Some (Apps e) ∧
  is_Some (Configs e) ∧ is_Some (JobStates e) ∧ is_Some (Manager e) ∧
  is_Some (Releases e) ∧ is_Some (Slugs e) ∧ is_Some (DeploysService e).

End Package.

(** The facade: one method of [*Empire] per operation, each a call of the
    method of the same name on one of the services or on the store.  The
    methods of the services are defined in other files; they are taken
    here as they come, over any effect [M]. *)
Section Facade.
Context {M : Type → Type}.
Context {AccessToken : Type}.

Variable AccessTokensService_AccessTokensFind :
  ptr → string → M (option AccessToken * option error).
Variable AccessTokensService_AccessTokensCreate :
  ptr → AccessToken → M (option AccessToken * option error).
Variable Store_AppsAll : ptr → M (list App * option error).
Variable Store_AppsCreate : ptr → App → M (option App * option error).
Variable Store_AppsFind : ptr → string → M (option App * option error).
Variable AppsService_AppsDestroy : ptr → App → M (option error).
Variable ConfigsService_ConfigsCurrent :
  ptr → App → M (option Config * option error).
Variable ConfigsService_ConfigsApply :
  ptr → App → gmap string string → M (option Config * option error).
Variable Store_ConfigsFind : ptr → string → M (option Config * option error).
Variable JobStatesService_JobStatesByApp :
  ptr → App → M (list JobState * option error).
Variable Store_ProcessesAll : ptr → Release → M (Formation * option error).
Variable ReleasesService_ReleasesCreate :
  ptr → App → Config → Slug → string → M (option Release * option error).
Variable Store_ReleasesFindByApp : ptr → App → M (list Release * option error).
Variable Store_ReleasesFindByAppAndVersion :
  ptr → App → Z → M (option Release * option error).
Variable Store_ReleasesLast : ptr → App → M (option Release * option error).
Variable Manager_ScaleRelease :
  ptr → Release → Config → Slug → Formation → ProcessQuantityMap →
  M (option error).
Variable Store_SlugsFind : ptr → string → M (option Slug * option error).
Variable Store_Reset : ptr → M (option error).
Variable migrate_UpSync : string → string → M (list error * bool).

Definition AccessTokensFind (e : EmpireT) (token : string) :=
  AccessTokensService_AccessTokensFind (AccessTokens e) token.

Definition AccessTokensCreate (e : EmpireT) (accessToken : AccessToken) :=
  AccessTokensService_AccessTokensCreate (AccessTokens e) accessToken.

Definition AppsAll (e : EmpireT) := Store_AppsAll (Store e).

Definition AppsCreate (e : EmpireT) (app : App) := Store_AppsCreate (Store e) app.

Definition AppsFind (e : EmpireT) (name : string) := Store_AppsFind (Store e) name.

Definition AppsDestroy (e : EmpireT) (app : App) :=
  AppsService_AppsDestroy (Apps e) app.

Definition ConfigsCurrent (e : EmpireT) (app : App) :=
  ConfigsService_ConfigsCurrent (Configs e) app.

Definition ConfigsApply (e : EmpireT) (app : App) (vars : gmap string string) :=
  ConfigsService_ConfigsApply (Configs e) app vars.

Definition ConfigsFind (e : EmpireT) (id : string) := Store_ConfigsFind (Store e) id.

Definition JobStatesByApp (e : EmpireT) (app : App) :=
  JobStatesService_JobStatesByApp (JobStates e) app.

Definition ProcessesAll (e : EmpireT) (release : Release) :=
  Store_ProcessesAll (Store e) release.

Definition ReleasesCreate (e : EmpireT) (app : App) (config : Config)
    (slug : Slug) (desc : string) :=
  ReleasesService_ReleasesCreate (Releases e) app config slug desc.

Definition ReleasesFindByApp (e : EmpireT) (app : App) :=
  Store_ReleasesFindByApp (Store e) app.

Definition ReleasesFindByAppAndVersion (e : EmpireT) (app : App) (version : Z) :=
  Store_ReleasesFindByAppAndVersion (Store e) app version.

Definition ReleasesLast (e : EmpireT) (app : App) := Store_ReleasesLast (Store e) app.

Definition ScaleRelease (e : EmpireT) (release : Release) (config : Config)
    (slug : Slug) (formation : Formation) (qm : ProcessQuantityMap) :=
  Manager_ScaleRelease (Manager e) release config slug formation qm.

Definition SlugsFind (e : EmpireT) (id : string) := Store_SlugsFind (Store e) id.

Definition Reset (e : EmpireT) := Store_Reset (Store e).

Definition Migrate (db path : string) := migrate_UpSync db path.

End Facade.
End Empire.

(** ** The facade over the modelled services *)

(** The facade methods whose services are modelled above, with those models
    as the services' methods.  The world is what the receiver reaches
    through its [store] and [scheduler] fields. *)
Module System.
Section WithScheduler.
Context {B : Type} `{!Scheduler B}.

Definition ScaleRelease (e : Empire.EmpireT) (release : Release)
    (config : Config) (slug : Slug) (formation : Formation)
    (qm : ProcessQuantityMap) : Op B (option error) :=
  Empire.ScaleRelease (λ _ : Empire.ptr, Manager.ScaleRelease)
    e release config slug formation qm.

Definition ReleasesCreate (e : Empire.EmpireT) (app : App) (config : Config)
    (slug : Slug) (desc : string) : Op B (option Release * option error) :=
  Empire.ReleasesCreate (λ _ : Empire.ptr, ReleasesService.ReleasesCreate)
    e app config slug desc.

Definition JobStatesByApp (e : Empire.EmpireT) (app : App)
    : Op B (list JobState * option error) :=
  Empire.JobStatesByApp (λ _ : Empire.ptr, JobStatesService.JobStatesByApp) e app.

(** A request to the facade, and the world after a sequence of them. *)
Inductive Request : Type :=
| ReqScale (release : Release) (config : Config) (slug : Slug)
           (formation : Formation) (qm : ProcessQuantityMap)
| ReqCreate (app : App) (config : Config) (slug : Slug) (desc : string)
| ReqJobStates (app : App).



End WithScheduler.
End System.

(** ** The object graph built by New *)

Module Wiring.
Section Objects.
Import Empire.
Context {DBConn Extractor FleetScheduler : Type}.

(** The nine fields of the [Empire] struct, in declaration order. *)
Definition fields (e : EmpireT) : list ptr :=
  [Store e; AccessTokens e; Apps e; Configs e; JobStates e; Manager e;
   Releases e; Slugs e; DeploysService e].



(** Whether an object is one of the services, deployers or the Empire, as
    opposed to the store and the scheduler they are built on. *)
Definition isService (o : @object DBConn Extractor FleetScheduler) : bool :=
  match o with
  | OFakeScheduler _ | OStore _ => false
  | _ => true
  end.

End Objects.
End Wiring.

(** The innermost error under any number of [ValidationError] wrappers. *)
Fixpoint cause (e : error) : error :=
  match e with
  | ValidationError Err => cause Err
  | _ => e
  end.

(** ** Scenario data *)

(** The App "web-app" of the end-to-end scenarios, with release v1 whose
    formation runs one "web" process. *)
Module Scenario.

Definition webApp : App := mkApp "web-app".
Definition config : Config := mkConfig "cfg-1" {[ "PORT" := "8080" ]}.
Definition slug : Slug :=
  mkSlug "slug-1" "remind101/web-app" {[ "web" := "./bin/web"; "worker" := "./bin/worker" ]}.
Definition web1 : Formation := {[ "web" := mkProcess "./bin/web" 1 ]}.
Definition web3 : Formation := {[ "web" := mkProcess "./bin/web" 3 ]}.
Definition webAndWorker : Formation :=
  {[ "web" := mkProcess "./bin/web" 1; "worker" := mkProcess "./bin/worker" 2 ]}.
Definition v1 : Release := mkRelease "web-app" 1 "cfg-1" "slug-1" web1 "first".
Definition scaleWeb3 : ProcessQuantityMap := {[ "web" := 3 ]}.
Definition scaleWorker : ProcessQuantityMap := {[ "worker" := 2 ]}.

Definition empire : Empire.EmpireT :=
  Empire.mkEmpire (Some 0) (Some 2) (Some 6) (Some 3) (Some 5) (Some 7)
                  (Some 8) (Some 9) (Some 11).

Definition world : World FakeScheduler.t :=
  mkWorld emptyStore FakeScheduler.NewFakeScheduler [].


(** Stand-ins for the constructors of other packages: a database that
    refuses the empty connection string, a URL parser that refuses a lone
    "%" (an invalid escape), a fleet client and an extractor that always
    come up. *)
Definition newDB (conn : string) : option string * option error :=
  if bool_decide (conn = "") then (None, Some (ErrorString "missing database"))
  else (Some conn, None).

Definition url_Parse (raw : string) : option string * option error :=
  if bool_decide (raw = "%")
  then (None, Some (ErrorString "parse %: invalid URL escape"))
  else (Some raw, None).

Definition NewFleetScheduler (u : option string) : option string * option error :=
  (u, None).

Definition NewExtractor (socket certPath : string) (auth : option unit)
    : option string * option error :=
  (Some socket, None).

Definition options : @Empire.Options unit :=
  Empire.mkOptions
    (Empire.mkDockerOptions "remind101" "unix:///var/run/docker.sock" "" None)
    (Empire.mkFleetOptions "fake") "secret" "postgres://localhost/empire".

End Scenario.

(** ** Kinds of objects *)

Module Kinds.

(** The Go type of an object of the heap. *)
Inductive Kind : Type :=
| KFakeScheduler | KStore | KAccessTokensService | KConfigsService
| KJobsService | KJobStatesService | KAppsService | KManager
| KReleasesService | KSlugsService | KimageDeployer | KcommitDeployer
| KEmpire.

Section Objects.
Import Empire.
Context {DBConn Extractor FleetScheduler : Type}.

Definition kind (o : @object DBConn Extractor FleetScheduler) : Kind :=
  match o with
  | OFakeScheduler _ => KFakeScheduler
  | OStore _ => KStore
  | OAccessTokensService _ => KAccessTokensService
  | OConfigsService _ => KConfigsService
  | OJobsService _ _ => KJobsService
  | OJobStatesService _ _ => KJobStatesService
  | OAppsService _ _ => KAppsService
  | OManager _ _ => KManager
  | OReleasesService _ _ => KReleasesService
  | OSlugsService _ _ => KSlugsService
  | OimageDeployer _ _ _ _ => KimageDeployer
  | OcommitDeployer _ _ _ => KcommitDeployer
  | OEmpire _ => KEmpire
  end.

(** The type of the object a pointer leads to; none for nil or a dangling
    pointer. *)
Definition kindAt (p : ptr) (h : list (@object DBConn Extractor FleetScheduler))
    : option Kind :=
  kind <$> deref p h.

(** The types of the objects a call added to the heap, in allocation
    order. *)
Definition added (h h' : list (@object DBConn Extractor FleetScheduler))
    : list Kind :=
  kind <$> drop (length h) h'.

End Objects.

(** A service method that only reports the receiver it is called on. *)
Definition Probe (A : Type) : Type := Empire.ptr.

End Kinds.

(** ** Boot scenarios *)

(** [New] run with the stand-in constructors: once on the empty heap, once
    more on the heap the first run leaves, and once with an endpoint that
    does not parse. *)
Module Boot.

Definition New (options : @Empire.Options unit)
    : State (list (@Empire.object string string string))
            (Empire.ptr * option error) :=
  Empire.New Scenario.newDB Scenario.url_Parse Scenario.NewFleetScheduler
    Scenario.NewExtractor options.

Definition first := New Scenario.options [].

Definition second := New Scenario.options first.2.

Definition badEndpoint : @Empire.Options unit :=
  Empire.mkOptions
    (Empire.mkDockerOptions "remind101" "unix:///var/run/docker.sock" "" None)
    (Empire.mkFleetOptions "%") "secret" "postgres://localhost/empire".

Definition failed := New badEndpoint [].

End Boot.

(** * Properties *)

(** ** Formation model *)

Section MergeFacts.
Import FormationModel.

Lemma merge_lookup (F : Formation) (Q : ProcessQuantityMap) (p : string) :
  merge F Q !! p =
    (λ spec, match Q !! p with
             | Some n => mkProcess (Command spec) n
             | None => spec
             end) <$> F !! p.
Proof.
  unfold merge. rewrite map_lookup_imap.
  destruct (F !! p); reflexivity.
Qed.

Lemma merge_dom (F : Formation) (Q : ProcessQuantityMap) :
  dom (merge F Q) = dom F.
Proof.
  apply set_eq. intros p. rewrite !elem_of_dom, merge_lookup.
  rewrite fmap_is_Some. reflexivity.
Qed.

Lemma validQuantities_true (F : Formation) (Q : ProcessQuantityMap) :
  validQuantities F Q = true ↔ dom Q ⊆ dom F.
Proof. unfold validQuantities. apply bool_decide_eq_true. Qed.

Lemma validQuantities_false (F : Formation) (Q : ProcessQuantityMap) (p : string) :
  is_Some (Q !! p) → F !! p = None → validQuantities F Q = false.
Proof.
  intros HQ HF. unfold validQuantities. apply bool_decide_eq_false.
  intros Hsub. apply elem_of_dom in HQ. apply Hsub in HQ.
  apply elem_of_dom in HQ. rewrite HF in HQ. by destruct HQ.
Qed.

(** C4.  For a quantity map [Q] whose keys are all process types of [F],
    [merge F Q] keeps every type that [Q] does not mention exactly as it
    is in [F] (command and count), gives every mentioned type the count
    of [Q] under its old command, and defines the same types as [F]. *)
Theorem merge_spec (F : Formation) (Q : ProcessQuantityMap) (p : string) :
  dom Q ⊆ dom F →
  (Q !! p = None → merge F Q !! p = F !! p) ∧
  (∀ n, Q !! p = Some n →
     ∃ spec, F !! p = Some spec ∧
             merge F Q !! p = Some (mkProcess (Command spec) n) ∧
             count (merge F Q) p = n) ∧
  dom (merge F Q) = dom F.
Proof.
  intros Hsub. split; [|split].
  - intros HQ. rewrite merge_lookup, HQ. by destruct (F !! p).
  - intros n HQ.
    assert (is_Some (F !! p)) as [spec HF].
    { apply elem_of_dom, Hsub, elem_of_dom. by exists n. }
    exists spec. unfold count. rewrite merge_lookup, HF, HQ. done.
  - apply merge_dom.
Qed.

Lemma merge_spec_witness :
  dom Scenario.scaleWeb3 ⊆ dom Scenario.webAndWorker ∧
  merge Scenario.webAndWorker Scenario.scaleWeb3 !! "web"
    = Some (mkProcess "./bin/web" 3) ∧
  merge Scenario.webAndWorker Scenario.scaleWeb3 !! "worker"
    = Some (mkProcess "./bin/worker" 2).
Proof.
  assert (dom Scenario.scaleWeb3 ⊆ dom Scenario.webAndWorker) as Hsub.
  { apply validQuantities_true. vm_compute. reflexivity. }
  split; [exact Hsub|]. split.
  - destruct (merge_spec Scenario.webAndWorker Scenario.scaleWeb3 "web" Hsub)
      as (_ & Hm & _).
    destruct (Hm 3 eq_refl) as (spec & HF & Hl & _).
    vm_compute in HF. injection HF as <-. exact Hl.
  - destruct (merge_spec Scenario.webAndWorker Scenario.scaleWeb3 "worker" Hsub)
      as (Hn & _ & _).
    rewrite Hn; reflexivity.
Defined.

End MergeFacts.

(** ** Job translator *)

Section TranslatorFacts.
Import FormationModel Translator.




(** Of the blocks a keyed list contributes, only the block of key [p]
    survives a filter on [p]. *)
Section ByKey.
Context {V X : Type} (g : string → V → list X) (key : X → string).
Hypothesis g_key : ∀ k v x, x ∈ g k v → key x = k.




End ByKey.






(** The scenarios of the specification: {"web": 3} down to {"web": 1}
    stops web.2 then web.1 and leaves web.0; a new type scaled to 3
    starts web.0, web.1, web.2. *)
Example diff_scale_down :
  diff "web-app" ∅ Scenario.web3 Scenario.web1
    = ([mkJob "web-app" "web" 2; mkJob "web-app" "web" 1], []).
Proof. vm_compute. reflexivity. Qed.

Example diff_scale_up_from_zero :
  scheduledFor "web" (diff "web-app" ∅ ∅ Scenario.web3).2 = [0; 1; 2].
Proof. vm_compute. reflexivity. Qed.

End TranslatorFacts.

(** ** Manager *)

Section ManagerFacts.
Import FormationModel Translator.
Context {B : Type} `{!Scheduler B}.








(** A scale request whose quantities name an unknown type changes
    nothing. *)
Lemma ScaleRelease_invalid release config slug (F : Formation)
    (Q : ProcessQuantityMap) (w : World B) :
  validQuantities F Q = false →
  Manager.ScaleRelease release config slug F Q w =
    (Some (ValidationError (ErrorString "unknown process type")), w).
Proof. intros Hv. unfold Manager.ScaleRelease. by rewrite Hv. Qed.




End ManagerFacts.

(** ** Scaling through the facade *)

Section ScaleFacts.
Import FormationModel Translator.
Context {B : Type} `{!Scheduler B}.

(** C1.  A [ScaleRelease] whose quantities have a key [p] that is not a
    process type of the formation fails with a [ValidationError] and leaves
    the world as it was: no call is issued to the scheduler, and the store
    (so the stored formation) is unchanged. *)
Theorem ScaleRelease_unknown_type (e : Empire.EmpireT) (release : Release)
    (config : Config) (slug : Slug) (formation : Formation)
    (quantities : ProcessQuantityMap) (p : string) (w : World B) :
  is_Some (quantities !! p) →
  formation !! p = None →
  ∃ err w',
    System.ScaleRelease e release config slug formation quantities w
      = (Some (ValidationError err), w') ∧
    w_calls w' = w_calls w ∧
    w_sched w' = w_sched w ∧
    w_store w' = w_store w.
Proof.
  intros HQ HF. exists (ErrorString "unknown process type"), w.
  split; [|done].
  unfold System.ScaleRelease, Empire.ScaleRelease.
  apply ScaleRelease_invalid. by apply (validQuantities_false _ _ p).
Qed.


End ScaleFacts.

Lemma ScaleRelease_unknown_type_witness :
  is_Some (Scenario.scaleWorker !! "worker") ∧
  Scenario.web1 !! "worker" = None ∧
  ∃ err w',
    System.ScaleRelease Scenario.empire Scenario.v1 Scenario.config
      Scenario.slug Scenario.web1 Scenario.scaleWorker Scenario.world
      = (Some (ValidationError err), w') ∧
    w_calls w' = w_calls Scenario.world ∧
    w_sched w' = w_sched Scenario.world ∧
    w_store w' = w_store Scenario.world.
Proof.
  assert (is_Some (Scenario.scaleWorker !! "worker")) as H1
    by (exists 2; vm_compute; reflexivity).
  assert (Scenario.web1 !! "worker" = None) as H2
    by (vm_compute; reflexivity).
  split; [exact H1|]. split; [exact H2|].
  exact (ScaleRelease_unknown_type Scenario.empire Scenario.v1 Scenario.config
           Scenario.slug Scenario.web1 Scenario.scaleWorker "worker"
           Scenario.world H1 H2).
Defined.


(** The end-to-end scenario: with {"web": 1} applied, scaling v1 to
    {"web": 3} starts web.1 and web.2 and persists {"web": 3}; the fake
    scheduler then reports three running "web" jobs, instances 0 to 2; and
    scaling back to 1 stops web.2, then web.1. *)
Example scenario_end_to_end :
  let w1 := (System.ScaleRelease Scenario.empire Scenario.v1 Scenario.config
               Scenario.slug Scenario.web1 ∅ Scenario.world).2 in
  let r2 := System.ScaleRelease Scenario.empire Scenario.v1 Scenario.config
               Scenario.slug Scenario.web1 Scenario.scaleWeb3 w1 in
  let r3 := System.JobStatesByApp Scenario.empire Scenario.webApp r2.2 in
  let r4 := System.ScaleRelease Scenario.empire Scenario.v1 Scenario.config
               Scenario.slug Scenario.web1 {[ "web" := 1 ]} r3.2 in
  r2.1 = None ∧
  drop (length (w_calls w1)) (w_calls r2.2)
    = [CallSchedule [mkJobSpec (mkJob "web-app" "web" 1) "./bin/web"
                       (config_Vars Scenario.config)];
       CallSchedule [mkJobSpec (mkJob "web-app" "web" 2) "./bin/web"
                       (config_Vars Scenario.config)]] ∧
  (Store.FormationCurrent "web-app" (w_store r2.2)).2 = Scenario.web3 ∧
  map (λ js, (job_Type (state_Job js), job_Instance (state_Job js), state_Status js))
      r3.1.1
    = [("web", 0, "running"); ("web", 1, "running"); ("web", 2, "running")] ∧
  drop (length (w_calls r3.2)) (w_calls r4.2)
    = [CallUnschedule (mkJob "web-app" "web" 2);
       CallUnschedule (mkJob "web-app" "web" 1)] ∧
  map spec_Job (w_sched r4.2) = [mkJob "web-app" "web" 0].
Proof. vm_compute. done. Qed.

(** ** Releases are never edited *)

Section ReleaseFrame.
Context {B : Type} `{!Scheduler B}.






End ReleaseFrame.

(** Release v1 is created with formation {"web": 1} and then scaled to
    {"web": 3}: the store's current formation is the new value, the release
    still carries its snapshot. *)
Example scale_keeps_release :
  let w1 := (System.ReleasesCreate Scenario.empire Scenario.webApp
               Scenario.config Scenario.slug "first" Scenario.world).2 in
  let w2 := (System.ScaleRelease Scenario.empire Scenario.v1 Scenario.config
               Scenario.slug Scenario.web1 Scenario.scaleWeb3 w1).2 in
  (Store.FormationCurrent "web-app" (w_store w2)).2 = Scenario.web3 ∧
  st_Releases (w_store w2) = st_Releases (w_store w1) ∧
  rel_Formation <$> Store.ReleasesLast "web-app" (w_store w2)
    = Some ({[ "web" := mkProcess "./bin/web" 1;
               "worker" := mkProcess "./bin/worker" 0 ]} : Formation).
Proof. vm_compute. done. Qed.

(** ** Release versions *)

Section VersionFacts.
Import Race.












Lemma newRelease_fields (app : App) (config : Config) (slug : Slug)
    (desc : string) (st : StoreData) :
  rel_App (ReleasesService.newRelease app config slug desc st) = app_Name app ∧
  rel_Version (ReleasesService.newRelease app config slug desc st)
    = S (Store.highestVersion (app_Name app) (st_Releases st)).
Proof. done. Qed.






End VersionFacts.

(** ** empire.go: scheduler selection *)

Section SchedulerSelection.
Import Empire.
Context {DBConn URL Extractor FleetScheduler : Type}.
Variable url_Parse : string → option URL * option error.
Variable NewFleetScheduler : option URL → option FleetScheduler * option error.

#[local] Abbreviation heapT := (list (@object DBConn Extractor FleetScheduler)).
#[local] Abbreviation newSched := (newScheduler url_Parse NewFleetScheduler).

Lemma newScheduler_fake (h : heapT) :
  newSched "fake" h
    = ((Some (FakeRef (length h)), None),
       h ++ [OFakeScheduler FakeScheduler.NewFakeScheduler]).
Proof. reflexivity. Qed.

Lemma newScheduler_other (fleetURL : string) (h : heapT) :
  fleetURL ≠ "fake" →
  newSched fleetURL h =
    (match url_Parse fleetURL with
     | (_, Some e) => (None, Some e)
     | (u, None) => (FleetRef <$> (NewFleetScheduler u).1, (NewFleetScheduler u).2)
     end, h).
Proof.
  intros Hne. unfold newScheduler.
  rewrite bool_decide_eq_false_2 by done.
  destruct (url_Parse fleetURL) as [u [e|]]; [done|].
  by destruct (NewFleetScheduler u).
Qed.

Lemma newScheduler_prefix (fleetURL : string) (h : heapT) :
  h `prefix_of` (newSched fleetURL h).2.
Proof.
  destruct (decide (fleetURL = "fake")) as [->|Hne].
  - rewrite newScheduler_fake. simpl. by apply prefix_app_r.
  - by rewrite newScheduler_other.
Qed.

(** C6.  The backend is chosen by the endpoint string alone.  The string
    "fake" gives a new in-memory fake scheduler and no error.  Any other
    string is parsed as a URL: if parsing fails, the result is no scheduler
    and the parse error; otherwise it is what the fleet constructor returns
    for the parsed URL, and no fake is created. *)
Theorem newScheduler_selection (fleetURL : string) (h : heapT) :
  (fleetURL = "fake" →
     newSched fleetURL h
       = ((Some (FakeRef (length h)), None),
          h ++ [OFakeScheduler FakeScheduler.NewFakeScheduler])) ∧
  (fleetURL ≠ "fake" → ∀ u e,
     url_Parse fleetURL = (u, Some e) →
     newSched fleetURL h = ((None, Some e), h)) ∧
  (fleetURL ≠ "fake" → ∀ u,
     url_Parse fleetURL = (u, None) →
     newSched fleetURL h
       = ((FleetRef <$> (NewFleetScheduler u).1, (NewFleetScheduler u).2), h)).
Proof.
  split; [|split].
  - intros ->. apply newScheduler_fake.
  - intros Hne u e Hp. by rewrite newScheduler_other, Hp.
  - intros Hne u Hp. by rewrite newScheduler_other, Hp.
Qed.

(** C7.  For every endpoint other than the sentinel "fake", [newScheduler]
    never returns the fake and creates none: the result is either no
    scheduler with the URL parse error, or exactly what the fleet
    constructor returns (the fleet backend, or its error). *)
Theorem newScheduler_never_fake (fleetURL : string) (h : heapT) :
  fleetURL ≠ "fake" →
  (∀ a, (newSched fleetURL h).1.1 ≠ Some (FakeRef a)) ∧
  (newSched fleetURL h).2 = h ∧
  ((∃ e, (url_Parse fleetURL).2 = Some e ∧
         (newSched fleetURL h).1 = (None, Some e)) ∨
   ((url_Parse fleetURL).2 = None ∧
    (newSched fleetURL h).1
      = (FleetRef <$> (NewFleetScheduler (url_Parse fleetURL).1).1,
         (NewFleetScheduler (url_Parse fleetURL).1).2))).
Proof.
  intros Hne. rewrite newScheduler_other by done.
  destruct (url_Parse fleetURL) as [u [e|]]; simpl.
  - split; [done|]. split; [done|]. left. by exists e.
  - split; [|split; [done|by right]].
    intros a. by destruct (NewFleetScheduler u).1.
Qed.

End SchedulerSelection.

Lemma newScheduler_never_fake_witness :
  "" ≠ "fake" ∧
  Empire.newScheduler (DBConn := string) (Extractor := string)
    Scenario.url_Parse Scenario.NewFleetScheduler "" []
    = ((Some (Empire.FleetRef ""), None), []).
Proof.
  assert ("" ≠ "fake") as Hne by discriminate.
  split; [exact Hne|].
  destruct (newScheduler_never_fake (DBConn := string) (Extractor := string)
              Scenario.url_Parse Scenario.NewFleetScheduler "" [] Hne)
    as (_ & Hh & [(e & He & _)|[_ Hr]]).
  - vm_compute in He. discriminate He.
  - apply injective_projections; [exact Hr|exact Hh].
Defined.

(** The default options select the fleet backend, not the fake; an
    unparsable endpoint selects nothing. *)
Example newScheduler_default_options :
  Empire.newScheduler (DBConn := string) (Extractor := string)
    Scenario.url_Parse Scenario.NewFleetScheduler
    (Empire.API (Empire.Fleet (@Empire.DefaultOptions unit))) []
    = ((Some (Empire.FleetRef ""), None), []).
Proof. reflexivity. Qed.

Example newScheduler_bad_url :
  Empire.newScheduler (DBConn := string) (Extractor := string)
    Scenario.url_Parse Scenario.NewFleetScheduler "%" []
    = ((None, Some (ErrorString "parse %: invalid URL escape")), []).
Proof. reflexivity. Qed.

(** ** empire.go: New *)

Section NewFacts.
Import Empire.
Context {AuthConfigurations DBConn URL Extractor FleetScheduler : Type}.
Variable newDB : string → option DBConn * option error.
Variable url_Parse : string → option URL * option error.
Variable NewFleetScheduler : option URL → option FleetScheduler * option error.
Variable NewExtractor :
  string → string → option AuthConfigurations → option Extractor * option error.

#[local] Abbreviation heapT := (list (@object DBConn Extractor FleetScheduler)).
#[local] Abbreviation newSched := (newScheduler url_Parse NewFleetScheduler).
#[local] Abbreviation NewE := (New newDB url_Parse NewFleetScheduler NewExtractor).

Lemma deref_at (h : heapT) (k : nat) (l : heapT) (o : object) :
  l !! k = Some o → deref (Some (length h + k)) (h ++ l) = Some o.
Proof.
  intros Hl. unfold deref. simpl.
  rewrite lookup_app_r by lia.
  by replace (length h + k - length h) with k by lia.
Qed.

Lemma alloc_base (o : object) (g l : heapT) :
  alloc o (g ++ l) = (Some (length g + length l), g ++ (l ++ [o])).
Proof. unfold alloc. by rewrite length_app, app_assoc. Qed.

(** The objects [New] allocates once the three constructors have
    succeeded, above a heap of [n] objects whose store is at [st]. *)
Lemma New_success (options : Options) (h g : heapT) (db : option DBConn)
    (sc : option SchedulerRef) (ex : option Extractor) :
  newDB (DB options) = (db, None) →
  newSched (API (Fleet options)) (h ++ [OStore db]) = ((sc, None), g) →
  NewExtractor (Socket (Docker options)) (CertPath (Docker options))
               (Auth (Docker options)) = (ex, None) →
  let n := length g in
  let st := Some (length h) in
  NewE options h =
    ((Some (n + 10), None),
     g ++ [OAccessTokensService (String.list_byte_of_string (Secret options));
           OConfigsService st;
           OJobsService st sc;
           OJobStatesService st sc;
           OAppsService st (Some (n + 2));
           OManager (Some (n + 2)) st;
           OReleasesService st (Some (n + 5));
           OSlugsService st ex;
           OimageDeployer (Some (n + 4)) (Some (n + 1)) (Some (n + 7)) (Some (n + 6));
           OcommitDeployer (Organization (Docker options)) (Some (n + 8)) (Some (n + 4));
           OEmpire (mkEmpire st (Some (n + 0)) (Some (n + 4)) (Some (n + 1))
                             (Some (n + 3)) (Some (n + 5)) (Some (n + 6))
                             (Some (n + 7)) (Some (n + 9)))]).
Proof.
  intros Hdb Hsc Hex n st. unfold New. rewrite Hdb.
  unfold mbind, mret, State_bind, State_ret.
  change (alloc (OStore db) h) with (Some (length h), h ++ [OStore db]).
  cbv iota beta. rewrite Hsc, Hex.
  rewrite <- (app_nil_r g) at 1.
  repeat (rewrite alloc_base; cbn [length app]).
  reflexivity.
Qed.

(** C10.  [New] returns either an Empire and no error, or no Empire and an
    error.  An error of [newDB], of [newScheduler] or of [NewExtractor] is
    returned as it is.  On success the pointer leads to an Empire whose
    service fields are all set, the objects already in the heap are kept,
    and the jobs service inside the Manager and the JobStates service hold
    the same scheduler value: the one [newScheduler] returned, called once,
    after the store was allocated. *)
Theorem New_result (options : Options) (h : heapT) :
  let db := newDB (DB options) in
  let sch := newSched (API (Fleet options)) (h ++ [OStore db.1]) in
  let ext := NewExtractor (Socket (Docker options)) (CertPath (Docker options))
                          (Auth (Docker options)) in
  let r := NewE options h in
  ((is_Some r.1.1 ∧ r.1.2 = None) ∨ (r.1.1 = None ∧ is_Some r.1.2)) ∧
  (∀ x, db.2 = Some x → r = ((None, Some x), h)) ∧
  (db.2 = None → ∀ x, sch.1.2 = Some x → r.1 = (None, Some x)) ∧
  (db.2 = None → sch.1.2 = None → ∀ x, ext.2 = Some x → r.1 = (None, Some x)) ∧
  (r.1.2 = None →
     db.2 = None ∧ sch.1.2 = None ∧ ext.2 = None ∧
     h `prefix_of` r.2 ∧
     ∃ e jobs,
       deref r.1.1 r.2 = Some (OEmpire e) ∧
       allServicesSet e ∧
       deref (Store e) r.2 = Some (OStore db.1) ∧
       deref (Manager e) r.2 = Some (OManager jobs (Store e)) ∧
       deref jobs r.2 = Some (OJobsService (Store e) sch.1.1) ∧
       deref (JobStates e) r.2 = Some (OJobStatesService (Store e) sch.1.1)).
Proof.
  intros db sch ext r. subst r sch ext db.
  destruct (newDB (DB options)) as [db [x|]] eqn:Hdb; cbn [fst snd].
  { unfold New. rewrite Hdb.
    split; [right; eauto|]. split; [by intros ? [= ->]|]. done. }
  pose proof (newScheduler_prefix url_Parse NewFleetScheduler
                (API (Fleet options)) (h ++ [OStore db])) as [k Hk].
  destruct (newSched (API (Fleet options)) (h ++ [OStore db]))
    as [[sc [x|]] g] eqn:Hsc; cbn [fst snd] in *.
  { unfold New. rewrite Hdb.
    unfold mbind, mret, State_bind, State_ret.
    change (alloc (OStore db) h) with (Some (length h), h ++ [OStore db]).
    cbv iota beta. rewrite Hsc.
    split; [right; eauto|]. split; [done|]. split; [by intros _ ? [= ->]|]. done. }
  destruct (NewExtractor _ _ _) as [ex [x|]] eqn:Hex; cbn [fst snd].
  { unfold New. rewrite Hdb.
    unfold mbind, mret, State_bind, State_ret.
    change (alloc (OStore db) h) with (Some (length h), h ++ [OStore db]).
    cbv iota beta. rewrite Hsc, Hex.
    split; [right; eauto|]. split; [done|]. split; [done|].
    split; [by intros _ _ ? [= ->]|]. done. }
  rewrite (New_success options h g db sc ex Hdb Hsc Hex). cbn [fst snd].
  split; [left; eauto|]. split; [done|]. split; [done|]. split; [done|].
  intros _. split; [done|]. split; [done|]. split; [done|].
  split.
  { rewrite Hk, <- !app_assoc. by apply prefix_app_r. }
  eexists _, _. split; [by apply deref_at|]. cbn [Store Manager JobStates].
  split; [unfold allServicesSet; cbn; eauto 12|].
  split.
  { rewrite Hk, <- !app_assoc. rewrite <- (Nat.add_0_r (length h)).
    by apply deref_at. }
  split; [by apply deref_at|].
  split; by apply deref_at.
Qed.

End NewFacts.

(** With the stand-in constructors and the "fake" endpoint, [New] on the
    empty heap builds the Empire of the scenarios, and both services reach
    the fake at address 1. *)
Example New_scenario :
  let r := Empire.New Scenario.newDB Scenario.url_Parse Scenario.NewFleetScheduler
             Scenario.NewExtractor Scenario.options [] in
  r.1 = (Some 12, None) ∧
  Empire.deref r.1.1 r.2 = Some (Empire.OEmpire Scenario.empire) ∧
  r.2 !! 1 = Some (Empire.OFakeScheduler []) ∧
  r.2 !! 4 = Some (Empire.OJobsService (Some 0) (Some (Empire.FakeRef 1))) ∧
  r.2 !! 5 = Some (Empire.OJobStatesService (Some 0) (Some (Empire.FakeRef 1))) ∧
  r.2 !! 7 = Some (Empire.OManager (Some 4) (Some 0)).
Proof. vm_compute. done. Qed.

Example New_missing_database :
  Empire.New Scenario.newDB Scenario.url_Parse Scenario.NewFleetScheduler
    Scenario.NewExtractor Empire.DefaultOptions []
  = ((None, Some (ErrorString "missing database")), []).
Proof. reflexivity. Qed.

(** ** empire.go: the facade *)

Section FacadeFacts.
Import Empire.
Context {M : Type → Type} {AccessToken : Type}.
Variable AccessTokensService_AccessTokensFind :
  ptr → string → M (option AccessToken * option error).
Variable AccessTokensService_AccessTokensCreate :
  ptr → AccessToken → M (option AccessToken * option error).
Variable Store_AppsAll : ptr → M (list App * option error).
Variable Store_AppsCreate : ptr → App → M (option App * option error).
Variable Store_AppsFind : ptr → string → M (option App * option error).
Variable AppsService_AppsDestroy : ptr → App → M (option error).
Variable ConfigsService_ConfigsCurrent : ptr → App → M (option Config * option error).
Variable ConfigsService_ConfigsApply :
  ptr → App → gmap string string → M (option Config * option error).
Variable Store_ConfigsFind : ptr → string → M (option Config * option error).
Variable JobStatesService_JobStatesByApp : ptr → App → M (list JobState * option error).
Variable Store_ProcessesAll : ptr → Release → M (Formation * option error).
Variable ReleasesService_ReleasesCreate :
  ptr → App → Config → Slug → string → M (option Release * option error).
Variable Store_ReleasesFindByApp : ptr → App → M (list Release * option error).
Variable Store_ReleasesFindByAppAndVersion :
  ptr → App → Z → M (option Release * option error).
Variable Store_ReleasesLast : ptr → App → M (option Release * option error).
Variable Manager_ScaleRelease :
  ptr → Release → Config → Slug → Formation → ProcessQuantityMap → M (option error).
Variable Store_SlugsFind : ptr → string → M (option Slug * option error).
Variable Store_Reset : ptr → M (option error).
Variable migrate_UpSync : string → string → M (list error * bool).

(** C9.  Every method of the facade is the method of the same name of one
    of its services or of its store, applied to the same arguments:
    whatever the services do (any effect [M], any results or errors), the
    facade returns exactly that, and the facade over the modelled services
    is those models. *)
Theorem facade_delegates (e : EmpireT) :
  (∀ release config slug formation qm,
     ScaleRelease Manager_ScaleRelease e release config slug formation qm
       = Manager_ScaleRelease (Manager e) release config slug formation qm) ∧
  (∀ app,
     JobStatesByApp JobStatesService_JobStatesByApp e app
       = JobStatesService_JobStatesByApp (JobStates e) app) ∧
  (∀ app config slug desc,
     ReleasesCreate ReleasesService_ReleasesCreate e app config slug desc
       = ReleasesService_ReleasesCreate (Releases e) app config slug desc) ∧
  (∀ token,
     AccessTokensFind AccessTokensService_AccessTokensFind e token
       = AccessTokensService_AccessTokensFind (AccessTokens e) token) ∧
  (∀ accessToken,
     AccessTokensCreate AccessTokensService_AccessTokensCreate e accessToken
       = AccessTokensService_AccessTokensCreate (AccessTokens e) accessToken) ∧
  AppsAll Store_AppsAll e = Store_AppsAll (Store e) ∧
  (∀ app, AppsCreate Store_AppsCreate e app = Store_AppsCreate (Store e) app) ∧
  (∀ name, AppsFind Store_AppsFind e name = Store_AppsFind (Store e) name) ∧
  (∀ app, AppsDestroy AppsService_AppsDestroy e app
            = AppsService_AppsDestroy (Apps e) app) ∧
  (∀ app, ConfigsCurrent ConfigsService_ConfigsCurrent e app
            = ConfigsService_ConfigsCurrent (Configs e) app) ∧
  (∀ app vars, ConfigsApply ConfigsService_ConfigsApply e app vars
                 = ConfigsService_ConfigsApply (Configs e) app vars) ∧
  (∀ id, ConfigsFind Store_ConfigsFind e id = Store_ConfigsFind (Store e) id) ∧
  (∀ release, ProcessesAll Store_ProcessesAll e release
                = Store_ProcessesAll (Store e) release) ∧
  (∀ app, ReleasesFindByApp Store_ReleasesFindByApp e app
            = Store_ReleasesFindByApp (Store e) app) ∧
  (∀ app version,
     ReleasesFindByAppAndVersion Store_ReleasesFindByAppAndVersion e app version
       = Store_ReleasesFindByAppAndVersion (Store e) app version) ∧
  (∀ app, ReleasesLast Store_ReleasesLast e app = Store_ReleasesLast (Store e) app) ∧
  (∀ id, SlugsFind Store_SlugsFind e id = Store_SlugsFind (Store e) id) ∧
  Reset Store_Reset e = Store_Reset (Store e) ∧
  (∀ db path, Migrate migrate_UpSync db path = migrate_UpSync db path) ∧
  (∀ (B : Type) (sched : Scheduler B) release config slug formation qm,
     System.ScaleRelease (B := B) e release config slug formation qm
       = Manager.ScaleRelease release config slug formation qm) ∧
  (∀ (B : Type) (sched : Scheduler B) app,
     System.JobStatesByApp (B := B) e app = JobStatesService.JobStatesByApp app) ∧
  (∀ (B : Type) app config slug desc,
     System.ReleasesCreate (B := B) e app config slug desc
       = ReleasesService.ReleasesCreate app config slug desc).
Proof. repeat split. Qed.

End FacadeFacts.

(** ** empire.go: the object graph of New *)

Section WiringFacts.
Import Empire Wiring Kinds.
Context {AuthConfigurations DBConn URL Extractor FleetScheduler : Type}.
Variable newDB : string → option DBConn * option error.
Variable url_Parse : string → option URL * option error.
Variable NewFleetScheduler : option URL → option FleetScheduler * option error.
Variable NewExtractor :
  string → string → option AuthConfigurations → option Extractor * option error.

#[local] Abbreviation heapT := (list (@object DBConn Extractor FleetScheduler)).
#[local] Abbreviation newSched := (newScheduler url_Parse NewFleetScheduler).
#[local] Abbreviation NewE := (New newDB url_Parse NewFleetScheduler NewExtractor).
#[local] Abbreviation extractorOf options :=
  (NewExtractor (Socket (Docker options)) (CertPath (Docker options))
                (Auth (Docker options))).

(** What a call of [newScheduler] returns and allocates. *)
Lemma newScheduler_cases (fleetURL : string) (h g : heapT)
    (sc : option SchedulerRef) (err : option error) :
  newSched fleetURL h = ((sc, err), g) →
  (fleetURL = "fake" ∧ sc = Some (FakeRef (length h)) ∧ err = None ∧
   g = h ++ [OFakeScheduler FakeScheduler.NewFakeScheduler]) ∨
  (fleetURL ≠ "fake" ∧ g = h ∧ (∀ c, sc ≠ Some (FakeRef c)) ∧
   ((∃ e, (url_Parse fleetURL).2 = Some e ∧ sc = None ∧ err = Some e) ∨
    ((url_Parse fleetURL).2 = None ∧
     err = (NewFleetScheduler (url_Parse fleetURL).1).2))).
Proof.
  destruct (decide (fleetURL = "fake")) as [->|Hne].
  - rewrite newScheduler_fake. intros [= <- <- <-]. by left.
  - rewrite newScheduler_other by done. intros Hr. right.
    destruct (url_Parse fleetURL) as [u [e|]]; simpl in *.
    + injection Hr as <- <- <-. repeat split; try done. left. by exists e.
    + injection Hr as <- <- <-. repeat split; try done.
      * intros c. by destruct (NewFleetScheduler u).1.
      * by right.
Qed.

(** The four ways a call of [New] can go. *)
Lemma New_cases (options : Options) (h : heapT) :
  (∃ db x, newDB (DB options) = (db, Some x) ∧
           NewE options h = ((None, Some x), h)) ∨
  (∃ db sc x g,
     newDB (DB options) = (db, None) ∧
     newSched (API (Fleet options)) (h ++ [OStore db]) = ((sc, Some x), g) ∧
     NewE options h = ((None, Some x), g)) ∨
  (∃ db sc g ex x,
     newDB (DB options) = (db, None) ∧
     newSched (API (Fleet options)) (h ++ [OStore db]) = ((sc, None), g) ∧
     extractorOf options = (ex, Some x) ∧
     NewE options h = ((None, Some x), g)) ∨
  (∃ db sc g ex,
     newDB (DB options) = (db, None) ∧
     newSched (API (Fleet options)) (h ++ [OStore db]) = ((sc, None), g) ∧
     extractorOf options = (ex, None)).
Proof.
  unfold New.
  destruct (newDB (DB options)) as [db [x|]] eqn:Hdb.
  { left. by exists db, x. }
  right. unfold mbind, mret, State_bind, State_ret.
  change (alloc (OStore db) h) with (Some (length h), h ++ [OStore db]).
  cbv iota beta.
  destruct (newSched (API (Fleet options)) (h ++ [OStore db]))
    as [[sc [x|]] g] eqn:Hsc.
  { left. by exists db, sc, x, g. }
  right.
  destruct (extractorOf options) as [ex [x|]] eqn:Hex.
  { left. by exists db, sc, g, ex, x. }
  right. by exists db, sc, g, ex.
Qed.

(** A successful [New], read backwards. *)
Lemma New_ok_inv (options : Options) (h h' : heapT) (p : ptr) :
  NewE options h = ((p, None), h') →
  ∃ db sc g ex,
    newDB (DB options) = (db, None) ∧
    newSched (API (Fleet options)) (h ++ [OStore db]) = ((sc, None), g) ∧
    extractorOf options = (ex, None).
Proof.
  intros HN.
  destruct (New_cases options h)
    as [(db & x & _ & H)|[(db & sc & x & g & _ & _ & H)|
        [(db & sc & g & ex & x & _ & _ & _ & H)|(db & sc & g & ex & H)]]];
    try (rewrite H in HN; discriminate HN).
  by exists db, sc, g, ex.
Qed.

Lemma heap_after_scheduler (fleetURL : string) (h g : heapT) (db : option DBConn)
    (sc : option SchedulerRef) (err : option error) :
  newSched fleetURL (h ++ [OStore db]) = ((sc, err), g) →
  ∃ k, g = h ++ OStore db :: k ∧ length g = length h + 1 + length k ∧
       (k = [] ∨ k = [OFakeScheduler FakeScheduler.NewFakeScheduler]).
Proof.
  intros Hsc. apply newScheduler_cases in Hsc
    as [(_ & _ & _ & ->)|(_ & -> & _)].
  - exists [OFakeScheduler FakeScheduler.NewFakeScheduler].
    rewrite <- app_assoc. split; [done|]. split; [|by right].
    rewrite !length_app. simpl. lia.
  - exists []. split; [done|]. split; [|by left].
    rewrite !length_app. simpl. lia.
Qed.

Ltac new_ok H :=
  let db := fresh "db" in let sc := fresh "sc" in
  let g := fresh "g" in let ex := fresh "ex" in
  let Hdb := fresh "Hdb" in let Hsc := fresh "Hsc" in let Hex := fresh "Hex" in
  pose proof H as Hinv_;
  apply New_ok_inv in Hinv_ as (db & sc & g & ex & Hdb & Hsc & Hex);
  rewrite (New_success newDB url_Parse NewFleetScheduler NewExtractor
             _ _ g db sc ex Hdb Hsc Hex) in H;
  cbv zeta in H; injection H as <- <-.

(** X1.  On success every service holds the one store: the configs, jobs,
    job-states, apps, releases and slugs services and the manager all have
    the Empire's [Store] in their [store] field, and that store holds the
    connection [newDB] returned; the apps service and the manager hold the
    same jobs service; the releases service holds the Empire's manager;
    the slugs service holds the extractor [NewExtractor] returned. *)
Theorem New_shares_store (options : Options) (h h' : heapT) (a : nat) :
  NewE options h = ((Some a, None), h') →
  ∃ e jobs sc,
    deref (Some a) h' = Some (OEmpire e) ∧
    deref (Store e) h' = Some (OStore (newDB (DB options)).1) ∧
    deref (Configs e) h' = Some (OConfigsService (Store e)) ∧
    deref (JobStates e) h' = Some (OJobStatesService (Store e) sc) ∧
    deref (Apps e) h' = Some (OAppsService (Store e) jobs) ∧
    deref (Manager e) h' = Some (OManager jobs (Store e)) ∧
    deref jobs h' = Some (OJobsService (Store e) sc) ∧
    deref (Releases e) h' = Some (OReleasesService (Store e) (Manager e)) ∧
    deref (Slugs e) h' = Some (OSlugsService (Store e) (extractorOf options).1).
Proof.
  intros HN. new_ok HN.
  destruct (heap_after_scheduler _ _ _ _ _ _ Hsc) as (k & Hg & _ & _).
  rewrite Hdb, Hex. cbn [fst].
  eexists _, _, _. split; [by apply deref_at|].
  cbn [Store Configs JobStates Apps Manager Releases Slugs].
  split.
  { rewrite Hg, <- app_assoc, <- (Nat.add_0_r (length h)). by apply deref_at. }
  repeat split; by apply deref_at.
Qed.

(** X2.  On success the Empire's [DeploysService] is the commit deployer,
    configured with the organization of the docker options and holding the
    Empire's own apps service; its image deployer holds the Empire's own
    apps, configs, slugs and releases services. *)
Theorem New_wires_deployers (options : Options) (h h' : heapT) (a : nat) :
  NewE options h = ((Some a, None), h') →
  ∃ e image,
    deref (Some a) h' = Some (OEmpire e) ∧
    deref (DeploysService e) h'
      = Some (OcommitDeployer (Organization (Docker options)) image (Apps e)) ∧
    deref image h'
      = Some (OimageDeployer (Apps e) (Configs e) (Slugs e) (Releases e)).
Proof.
  intros HN. new_ok HN.
  eexists _, _. split; [by apply deref_at|].
  cbn [DeploysService Apps Configs Slugs Releases].
  split; by apply deref_at.
Qed.

(** X3.  On success the access-tokens service holds the bytes of the
    [Secret] option unchanged: decoding them gives the option back, and
    there are as many bytes as the string is long. *)
Theorem New_keeps_secret (options : Options) (h h' : heapT) (a : nat) :
  NewE options h = ((Some a, None), h') →
  ∃ e secret,
    deref (Some a) h' = Some (OEmpire e) ∧
    deref (AccessTokens e) h' = Some (OAccessTokensService secret) ∧
    String.string_of_list_byte secret = Secret options ∧
    length secret = String.length (Secret options).
Proof.
  intros HN. new_ok HN.
  eexists _, _. split; [by apply deref_at|]. cbn [AccessTokens].
  split; [by apply deref_at|].
  split; [apply String.string_of_list_byte_of_string|].
  unfold String.list_byte_of_string. rewrite length_map.
  induction (Secret options) as [|c s IH]; simpl; [done|by rewrite IH].
Qed.

(** The Empire a successful [New] returns is the last object of the heap,
    and its fields point to objects that this call allocated before it. *)
Lemma New_empire_fields (options : Options) (h h' : heapT) (a : nat) :
  NewE options h = ((Some a, None), h') →
  ∃ e, deref (Some a) h' = Some (OEmpire e) ∧
       length h' = S a ∧ length h < a ∧
       ∀ p, p ∈ fields e → ∃ c, p = Some c ∧ length h ≤ c < a.
Proof.
  intros HN. new_ok HN.
  destruct (heap_after_scheduler _ _ _ _ _ _ Hsc) as (k & _ & Hlen & _).
  eexists. split; [by apply deref_at|].
  split; [rewrite length_app; simpl; lia|]. split; [lia|].
  intros p Hp. unfold fields in Hp. cbn in Hp.
  repeat (apply elem_of_cons in Hp as [->|Hp]);
    try (eexists; split; [reflexivity|lia]).
  by apply elem_of_nil in Hp.
Qed.


(** X5.  [New] fails only through its three constructors.  It succeeds
    exactly when [newDB] and [NewExtractor] return no error and the
    endpoint is either "fake" or a string that parses and for which the
    fleet constructor returns no error; it checks neither the values the
    constructors return nor any other option.  It returns an Empire exactly
    when it returns no error. *)
Theorem New_succeeds_iff (options : Options) (h : heapT) :
  ((NewE options h).1.2 = None ↔
     (newDB (DB options)).2 = None ∧
     (API (Fleet options) = "fake" ∨
      ((url_Parse (API (Fleet options))).2 = None ∧
       (NewFleetScheduler (url_Parse (API (Fleet options))).1).2 = None)) ∧
     (extractorOf options).2 = None) ∧
  ((NewE options h).1.2 = None ↔ is_Some (NewE options h).1.1).
Proof.
  destruct (New_cases options h)
    as [(db & x & Hdb & ->)|[(db & sc & x & g & Hdb & Hsc & ->)|
        [(db & sc & g & ex & x & Hdb & Hsc & Hex & ->)|
         (db & sc & g & ex & Hdb & Hsc & Hex)]]]; cbn [fst snd].
  - rewrite Hdb. cbn [snd]. split.
    + split; [done|]. by intros [? _].
    + split; [done|]. by intros [? ?].
  - split; [|split; [done|by intros [? ?]]].
    split; [done|]. intros (_ & Hs & _). exfalso.
    apply newScheduler_cases in Hsc
      as [(_ & _ & ? & _)|(Hne & _ & _ & [(e & He & _)|[_ He]])]; [done|..].
    + destruct Hs as [?|[Hp _]]; [done|]. rewrite Hp in He. done.
    + destruct Hs as [?|[_ Hf]]; [done|]. rewrite Hf in He. done.
  - rewrite Hex. cbn [snd]. split.
    + split; [done|]. by intros (_ & _ & ?).
    + split; [done|]. by intros [? ?].
  - rewrite (New_success newDB url_Parse NewFleetScheduler NewExtractor
               options h g db sc ex Hdb Hsc Hex).
    cbn [fst snd]. rewrite Hdb, Hex. cbn [snd]. split.
    + split; [|done]. intros _. split; [done|]. split; [|done].
      apply newScheduler_cases in Hsc
        as [(? & _)|(_ & _ & _ & [(e & _ & _ & ?)|[Hp Hf]])];
        [by left|done|by right].
    + split; [by eexists|done].
Qed.

(** X6.  A failing [New] returns no Empire, its error is the error of one
    of the three constructors, and it leaves the objects of the heap as
    they were, adding at most two objects, none of them a service: the
    store, when the failure comes after [newDB], and the scheduler. *)
Theorem New_failure_footprint (options : Options) (h h' : heapT) (p : ptr)
    (x : error) :
  NewE options h = ((p, Some x), h') →
  p = None ∧
  ((newDB (DB options)).2 = Some x ∨
   (newSched (API (Fleet options))
             (h ++ [OStore (newDB (DB options)).1])).1.2 = Some x ∨
   (extractorOf options).2 = Some x) ∧
  ∃ l, h' = h ++ l ∧ length l ≤ 2 ∧ ∀ o, o ∈ l → isService o = false.
Proof.
  intros HN.
  destruct (New_cases options h)
    as [(db & y & Hdb & H)|[(db & sc & y & g & Hdb & Hsc & H)|
        [(db & sc & g & ex & y & Hdb & Hsc & Hex & H)|
         (db & sc & g & ex & Hdb & Hsc & Hex)]]].
  - rewrite H in HN. injection HN as <- <- <-. split; [done|].
    split; [left; by rewrite Hdb|].
    exists []. rewrite app_nil_r. split; [done|]. split; [simpl; lia|].
    intros o Ho. by apply elem_of_nil in Ho.
  - rewrite H in HN. injection HN as <- <- <-. split; [done|].
    split; [right; left; by rewrite Hdb; cbn [fst]; rewrite Hsc|].
    destruct (heap_after_scheduler _ _ _ _ _ _ Hsc) as (k & -> & _ & Hk).
    exists (OStore db :: k). split; [done|].
    destruct Hk as [->| ->]; (split; [simpl; lia|]);
      intros o Ho; repeat (apply elem_of_cons in Ho as [->|Ho]); try done;
      by apply elem_of_nil in Ho.
  - rewrite H in HN. injection HN as <- <- <-. split; [done|].
    split; [right; right; by rewrite Hex|].
    destruct (heap_after_scheduler _ _ _ _ _ _ Hsc) as (k & -> & _ & Hk).
    exists (OStore db :: k). split; [done|].
    destruct Hk as [->| ->]; (split; [simpl; lia|]);
      intros o Ho; repeat (apply elem_of_cons in Ho as [->|Ho]); try done;
      by apply elem_of_nil in Ho.
  - rewrite (New_success newDB url_Parse NewFleetScheduler NewExtractor
               options h g db sc ex Hdb Hsc Hex) in HN.
    discriminate HN.
Qed.

(** [New] only adds objects. *)
Lemma New_prefix (options : Options) (h h' : heapT) (r : ptr * option error) :
  NewE options h = (r, h') → h `prefix_of` h'.
Proof.
  intros HN.
  destruct (New_cases options h)
    as [(db & y & Hdb & H)|[(db & sc & y & g & Hdb & Hsc & H)|
        [(db & sc & g & ex & y & Hdb & Hsc & Hex & H)|
         (db & sc & g & ex & Hdb & Hsc & Hex)]]].
  - rewrite H in HN. by injection HN as <- <-.
  - rewrite H in HN. injection HN as <- <-.
    destruct (heap_after_scheduler _ _ _ _ _ _ Hsc) as (k & -> & _).
    by apply prefix_app_r.
  - rewrite H in HN. injection HN as <- <-.
    destruct (heap_after_scheduler _ _ _ _ _ _ Hsc) as (k & -> & _).
    by apply prefix_app_r.
  - rewrite (New_success newDB url_Parse NewFleetScheduler NewExtractor
               options h g db sc ex Hdb Hsc Hex) in HN.
    cbv zeta in HN. injection HN as <- <-.
    destruct (heap_after_scheduler _ _ _ _ _ _ Hsc) as (k & -> & _).
    rewrite <- app_assoc. by apply prefix_app_r.
Qed.

(** X7.  Two successful calls of [New], one after the other, return two
    Empires that share no object: the first Empire is still in the heap as
    it was, and no field of the one equals a field of the other. *)
Theorem New_twice_disjoint (options1 options2 : Options) (h h1 h2 : heapT)
    (a1 a2 : nat) :
  NewE options1 h = ((Some a1, None), h1) →
  NewE options2 h1 = ((Some a2, None), h2) →
  ∃ e1 e2,
    deref (Some a1) h1 = Some (OEmpire e1) ∧
    deref (Some a1) h2 = Some (OEmpire e1) ∧
    deref (Some a2) h2 = Some (OEmpire e2) ∧
    a1 ≠ a2 ∧
    h1 `prefix_of` h2 ∧
    ∀ p q, p ∈ fields e1 → q ∈ fields e2 → p ≠ q.
Proof.
  intros HN1 HN2.
  destruct (New_empire_fields _ _ _ _ HN1) as (e1 & He1 & Hl1 & _ & Hf1).
  destruct (New_empire_fields _ _ _ _ HN2) as (e2 & He2 & Hl2 & Hlt2 & Hf2).
  pose proof (New_prefix _ _ _ _ HN2) as Hpre.
  exists e1, e2. split; [done|]. split.
  { unfold deref in *. simpl in *. by eapply prefix_lookup_Some. }
  split; [done|]. split; [lia|]. split; [done|].
  intros p q Hp Hq ->.
  destruct (Hf1 _ Hp) as (c1 & -> & Hc1).
  destruct (Hf2 _ Hq) as (c2 & [= <-] & Hc2). lia.
Qed.

(** X9.  On the Empire a successful [New] returns, no facade method is
    called on a nil or dangling receiver: the receiver each method hands
    to its service is an object of that service's type (the manager for
    [ScaleRelease], the store for the finders, and so on). *)
Theorem facade_receivers_live (options : Options) (h h' : heapT) (a : nat) :
  NewE options h = ((Some a, None), h') →
  ∃ e,
    deref (Some a) h' = Some (OEmpire e) ∧
    (∀ r c s f q,
       kindAt (ScaleRelease (M := Probe) (λ m _ _ _ _ _, m) e r c s f q) h'
         = Some KManager) ∧
    (∀ app, kindAt (JobStatesByApp (M := Probe) (λ m _, m) e app) h'
              = Some KJobStatesService) ∧
    (∀ app c s d,
       kindAt (ReleasesCreate (M := Probe) (λ m _ _ _ _, m) e app c s d) h'
         = Some KReleasesService) ∧
    (∀ t, kindAt (AccessTokensFind (M := Probe) (AccessToken := unit)
                    (λ m _, m) e t) h' = Some KAccessTokensService) ∧
    (∀ t, kindAt (AccessTokensCreate (M := Probe) (AccessToken := unit)
                    (λ m _, m) e t) h' = Some KAccessTokensService) ∧
    (∀ app, kindAt (AppsDestroy (M := Probe) (λ m _, m) e app) h'
              = Some KAppsService) ∧
    (∀ app, kindAt (ConfigsCurrent (M := Probe) (λ m _, m) e app) h'
              = Some KConfigsService) ∧
    (∀ app vars, kindAt (ConfigsApply (M := Probe) (λ m _ _, m) e app vars) h'
                   = Some KConfigsService) ∧
    kindAt (AppsAll (M := Probe) (λ m, m) e) h' = Some KStore ∧
    (∀ app, kindAt (AppsCreate (M := Probe) (λ m _, m) e app) h' = Some KStore) ∧
    (∀ name, kindAt (AppsFind (M := Probe) (λ m _, m) e name) h' = Some KStore) ∧
    (∀ id, kindAt (ConfigsFind (M := Probe) (λ m _, m) e id) h' = Some KStore) ∧
    (∀ r, kindAt (ProcessesAll (M := Probe) (λ m _, m) e r) h' = Some KStore) ∧
    (∀ app, kindAt (ReleasesFindByApp (M := Probe) (λ m _, m) e app) h'
              = Some KStore) ∧
    (∀ app v,
       kindAt (ReleasesFindByAppAndVersion (M := Probe) (λ m _ _, m) e app v) h'
         = Some KStore) ∧
    (∀ app, kindAt (ReleasesLast (M := Probe) (λ m _, m) e app) h' = Some KStore) ∧
    (∀ id, kindAt (SlugsFind (M := Probe) (λ m _, m) e id) h' = Some KStore) ∧
    kindAt (Reset (M := Probe) (λ m, m) e) h' = Some KStore.
Proof.
  intros HN. new_ok HN.
  destruct (heap_after_scheduler _ _ _ _ _ _ Hsc) as (k & Hg & _ & _).
  eexists. split; [by apply deref_at|].
  match goal with |- context [g ++ ?l] => set (wired := l) end.
  assert (deref (Some (length h)) (g ++ wired) = Some (OStore db)) as Hstore.
  { rewrite Hg, <- app_assoc, <- (Nat.add_0_r (length h)). by apply deref_at. }
  unfold ScaleRelease, JobStatesByApp, ReleasesCreate, AccessTokensFind,
    AccessTokensCreate, AppsDestroy, ConfigsCurrent, ConfigsApply, AppsAll,
    AppsCreate, AppsFind, ConfigsFind, ProcessesAll, ReleasesFindByApp,
    ReleasesFindByAppAndVersion, ReleasesLast, SlugsFind, Reset, kindAt.
  cbn [Store AccessTokens Apps Configs JobStates Manager Releases Slugs].
  rewrite Hstore.
  repeat split; intros; try reflexivity;
    by erewrite deref_at by reflexivity.
Qed.

(** X10.  A successful [New] adds exactly one object of each type, in this
    order: the store, the fake scheduler when the endpoint is "fake" (and
    no scheduler object otherwise), then the access-tokens, configs, jobs,
    job-states, apps, manager, releases and slugs services, the image
    deployer, the commit deployer, and last the Empire. *)
Theorem New_allocates_once (options : Options) (h h' : heapT) (a : nat) :
  NewE options h = ((Some a, None), h') →
  added h h' =
    KStore ::
    (if decide (API (Fleet options) = "fake") then [KFakeScheduler] else []) ++
    [KAccessTokensService; KConfigsService; KJobsService; KJobStatesService;
     KAppsService; KManager; KReleasesService; KSlugsService;
     KimageDeployer; KcommitDeployer; KEmpire].
Proof.
  intros HN. new_ok HN. unfold added.
  apply newScheduler_cases in Hsc
    as [(Hf & _ & _ & ->)|(Hf & -> & _)].
  - rewrite decide_True by done.
    rewrite <- !app_assoc, drop_app_length. reflexivity.
  - rewrite decide_False by done.
    rewrite <- !app_assoc, drop_app_length. reflexivity.
Qed.

End WiringFacts.

(** The boot scenarios: the first run returns the Empire at address 12, the
    second the Empire at address 25, and the run with the endpoint that does
    not parse fails after allocating the store. *)
Lemma New_shares_store_witness :
  Boot.first = ((Some 12, None), Boot.first.2) ∧
  ∃ e jobs,
    Empire.deref (Some 12) Boot.first.2 = Some (Empire.OEmpire e) ∧
    Empire.deref (Empire.Manager e) Boot.first.2
      = Some (Empire.OManager jobs (Empire.Store e)) ∧
    Empire.deref (Empire.Releases e) Boot.first.2
      = Some (Empire.OReleasesService (Empire.Store e) (Empire.Manager e)).
Proof.
  assert (Boot.first = ((Some 12, None), Boot.first.2)) as H
    by (vm_compute; reflexivity).
  split; [exact H|].
  destruct (New_shares_store Scenario.newDB Scenario.url_Parse
              Scenario.NewFleetScheduler Scenario.NewExtractor
              Scenario.options [] Boot.first.2 12 H)
    as (e & jobs & sc & He & _ & _ & _ & _ & Hm & _ & Hr & _).
  exists e, jobs. split; [exact He|]. split; [exact Hm|exact Hr].
Defined.

Lemma New_wires_deployers_witness :
  Boot.first = ((Some 12, None), Boot.first.2) ∧
  ∃ e image,
    Empire.deref (Some 12) Boot.first.2 = Some (Empire.OEmpire e) ∧
    Empire.deref (Empire.DeploysService e) Boot.first.2
      = Some (Empire.OcommitDeployer "remind101" image (Empire.Apps e)).
Proof.
  assert (Boot.first = ((Some 12, None), Boot.first.2)) as H
    by (vm_compute; reflexivity).
  split; [exact H|].
  destruct (New_wires_deployers Scenario.newDB Scenario.url_Parse
              Scenario.NewFleetScheduler Scenario.NewExtractor
              Scenario.options [] Boot.first.2 12 H)
    as (e & image & He & Hd & _).
  exists e, image. split; [exact He|exact Hd].
Defined.

Lemma New_keeps_secret_witness :
  Boot.first = ((Some 12, None), Boot.first.2) ∧
  ∃ e secret,
    Empire.deref (Empire.AccessTokens e) Boot.first.2
      = Some (Empire.OAccessTokensService secret) ∧
    String.string_of_list_byte secret = "secret" ∧
    length secret = 6.
Proof.
  assert (Boot.first = ((Some 12, None), Boot.first.2)) as H
    by (vm_compute; reflexivity).
  split; [exact H|].
  destruct (New_keeps_secret Scenario.newDB Scenario.url_Parse
              Scenario.NewFleetScheduler Scenario.NewExtractor
              Scenario.options [] Boot.first.2 12 H)
    as (e & secret & _ & Ha & Hs & Hl).
  exists e, secret. split; [exact Ha|]. split; [exact Hs|exact Hl].
Defined.


Lemma New_failure_footprint_witness :
  Boot.failed
    = ((None, Some (ErrorString "parse %: invalid URL escape")), Boot.failed.2) ∧
  ∃ l, Boot.failed.2 = [] ++ l ∧ length l ≤ 2 ∧
       ∀ o, o ∈ l → Wiring.isService o = false.
Proof.
  assert (Boot.failed
          = ((None, Some (ErrorString "parse %: invalid URL escape")),
             Boot.failed.2)) as H
    by (vm_compute; reflexivity).
  split; [exact H|].
  exact (proj2 (proj2 (New_failure_footprint Scenario.newDB Scenario.url_Parse
                         Scenario.NewFleetScheduler Scenario.NewExtractor
                         Boot.badEndpoint [] Boot.failed.2 None _ H))).
Defined.

Lemma New_twice_disjoint_witness :
  Boot.first = ((Some 12, None), Boot.first.2) ∧
  Boot.second = ((Some 25, None), Boot.second.2) ∧
  ∃ e1 e2,
    Empire.deref (Some 12) Boot.second.2 = Some (Empire.OEmpire e1) ∧
    Empire.deref (Some 25) Boot.second.2 = Some (Empire.OEmpire e2) ∧
    ∀ p q, p ∈ Wiring.fields e1 → q ∈ Wiring.fields e2 → p ≠ q.
Proof.
  assert (Boot.first = ((Some 12, None), Boot.first.2)) as H1
    by (vm_compute; reflexivity).
  assert (Boot.second = ((Some 25, None), Boot.second.2)) as H2
    by (vm_compute; reflexivity).
  split; [exact H1|]. split; [exact H2|].
  destruct (New_twice_disjoint Scenario.newDB Scenario.url_Parse
              Scenario.NewFleetScheduler Scenario.NewExtractor
              Scenario.options Scenario.options [] Boot.first.2 Boot.second.2
              12 25 H1 H2)
    as (e1 & e2 & _ & He1 & He2 & _ & _ & Hd).
  exists e1, e2. split; [exact He1|]. split; [exact He2|exact Hd].
Defined.

Lemma facade_receivers_live_witness :
  Boot.first = ((Some 12, None), Boot.first.2) ∧
  ∃ e,
    Empire.deref (Some 12) Boot.first.2 = Some (Empire.OEmpire e) ∧
    Kinds.kindAt
      (Empire.ScaleRelease (M := Kinds.Probe) (λ m _ _ _ _ _, m) e Scenario.v1
         Scenario.config Scenario.slug Scenario.web1 Scenario.scaleWeb3)
      Boot.first.2 = Some Kinds.KManager ∧
    Kinds.kindAt (Empire.Reset (M := Kinds.Probe) (λ m, m) e) Boot.first.2
      = Some Kinds.KStore.
Proof.
  assert (Boot.first = ((Some 12, None), Boot.first.2)) as H
    by (vm_compute; reflexivity).
  split; [exact H|].
  destruct (facade_receivers_live Scenario.newDB Scenario.url_Parse
              Scenario.NewFleetScheduler Scenario.NewExtractor
              Scenario.options [] Boot.first.2 12 H)
    as (e & He & Hs & Hrest).
  exists e. split; [exact He|]. split; [apply Hs|].
  do 16 destruct Hrest as [_ Hrest]. exact Hrest.
Defined.

Lemma New_allocates_once_witness :
  Boot.first = ((Some 12, None), Boot.first.2) ∧
  length (Kinds.added [] Boot.first.2) = 13.
Proof.
  assert (Boot.first = ((Some 12, None), Boot.first.2)) as H
    by (vm_compute; reflexivity).
  split; [exact H|].
  rewrite (New_allocates_once Scenario.newDB Scenario.url_Parse
             Scenario.NewFleetScheduler Scenario.NewExtractor
             Scenario.options [] Boot.first.2 12 H).
  reflexivity.
Defined.


(** ** empire.go: ValidationError *)

(** X8.  Wrapping an error in [ValidationError], any number of times,
    never changes its message: the message of an error is the message of
    the innermost error under the wrappers, which is not itself a
    [ValidationError]. *)
Theorem ValidationError_message (e : error) (n : nat) :
  Error e = Error (cause e) ∧
  isValidationError (Some (cause e)) = false ∧
  Error (Nat.iter n ValidationError e) = Error e ∧
  cause (Nat.iter n ValidationError e) = cause e.
Proof.
  split; [|split; [|split]].
  - induction e; simpl; auto.
  - induction e; simpl; auto.
  - induction n as [|n IH]; simpl; auto.
  - induction n as [|n IH]; simpl; auto.
Qed.
